(** * video/scripts/generate_edl.py: the EDL timeline builder

    A shallow embedding of [build_edl] and of the configuration it reads,
    followed by the properties of the timeline it returns.

    Python's [float] is IEEE 754 binary64; it is modelled by Rocq's primitive
    [float], whose [+], [-] and [<] are the same operations.  The builtins
    [round(x, 3)] and [min(a, b)] are written out in [Module PyFloat]. *)

From Stdlib Require Import ZArith Floats.
From stdpp Require Import gmap strings list.

Set Warnings "-inexact-float".

(** ** Python's float builtins *)

Module PyFloat.

Local Open Scope Z_scope.

(** [num / den] rounded to the nearest integer, ties to the even one
    ([den] positive, [num] non-negative). *)
Definition round_half_even (num den : Z) : Z :=
  let q := num / den in
  let r := num mod den in
  match 2 * r ?= den with
  | Lt => q
  | Gt => q + 1
  | Eq => if Z.even q then q else q + 1
  end.

(** The number of thousandths nearest to [m * 2^e], computed on the exact
    binary value. *)
Definition millis_of (m : positive) (e : Z) : Z :=
  match e with
  | Zneg p => round_half_even (Zpos m * 1000) (Z.pow_pos 2 p)
  | _ => Zpos m * 1000 * 2 ^ e
  end.

(** The double nearest to [(-1)^s * n / 1000]: what reading the decimal
    string back gives.  A result of zero keeps the sign of the argument. *)
Definition of_millis (s : bool) (n : Z) : float :=
  match n with
  | Zpos p =>
      SF2Prim (SFdiv prec emax (S754_finite s p 0) (S754_finite false 1000 0))
  | _ => if s then (-0)%float else 0%float
  end.

(** [round(x, 3)] on a float: correctly rounded to three decimals through
    the decimal representation; zeros, infinities and NaN round to
    themselves. *)
Definition round3 (x : float) : float :=
  match Prim2SF x with
  | S754_finite s m e => of_millis s (millis_of m e)
  | _ => x
  end.

(** [min(a, b)]: the first argument unless the second is smaller. *)
Definition min (a b : float) : float :=
  if (b <? a)%float then b else a.

(** [a > b]. *)
Definition gt (a b : float) : bool := (b <? a)%float.

(** A value three-decimal rounding can return: one that rounding leaves
    alone (zero, infinity, NaN) or the double nearest to a whole number of
    thousandths. *)
Inductive ms_rounded : float → Prop :=
  | ms_special x :
      (∀ s m e, Prim2SF x ≠ S754_finite s m e) → ms_rounded x
  | ms_millis s n : ms_rounded (of_millis s n).

End PyFloat.

Import PyFloat.

Local Open Scope float_scope.

(** ** Configuration *)

Definition FPS : Z := 30.

Record Size := { w : Z; h : Z }.

Definition SIZE : Size := {| w := 1920; h := 1080 |}.

Definition INTRO_DURATION : float := 1.2.
Definition INTERSTITIAL_DURATION : float := 0.7.
Definition OUTRO_DURATION : float := 1.5.
Definition FADE_DURATION : float := 0.2.

(** Beat label to the text of its interstitial card; [None] is Python's
    [None]. *)
Definition BEAT_LABELS : gmap string (option string) :=
  list_to_map
    [ ("open", None);
      ("code_visible", None);
      ("navigate", None);
      ("multicursor_start", Some "multi-cursor");
      ("multicursor_active", None);
      ("multicursor_typed", None);
      ("split_view", Some "split view");
      ("csv_view", Some "csv editor");
      ("search", Some "search");
      ("outline", Some "outline");
      ("workspace", Some "workspace");
      ("command_palette", Some "command palette");
      ("end", None) ].

Definition SCENE_BEATS : list string :=
  [ "open"; "multicursor_start"; "split_view"; "csv_view"; "search";
    "outline"; "command_palette"; "end" ].

(** ** Data *)

(** One record of beats.jsonl. *)
Record BeatEvent := { b_label : string; b_t : float }.

Record Motion := { scaleFrom : float; scaleTo : float }.

(** A segment dict; ["kind"] is the constructor.  The interstitial cards have
    no ["subtext"] key. *)
Inductive Segment :=
  | Card (text : string) (subtext : option string) (start end_ : float)
  | Clip (label : string) (in_ out : float) (start end_ : float)
         (motion : Motion).

Definition seg_start (s : Segment) : float :=
  match s with
  | Card _ _ start _ => start
  | Clip _ _ _ start _ _ => start
  end.

Definition seg_end (s : Segment) : float :=
  match s with
  | Card _ _ _ end_ => end_
  | Clip _ _ _ _ end_ _ => end_
  end.

Record Transition := { type_ : string; at_ : float; dur : float }.

Record Inputs := { video : string }.

Record EDL := {
  fps : Z;
  size : Size;
  durationSec : float;
  inputs : Inputs;
  segments : list Segment;
  transitions : list Transition
}.

(** ** build_edl *)

(** The three locals the builder threads through its body. *)
Record Builder := {
  st_segments : list Segment;
  st_transitions : list Transition;
  timeline_pos : float
}.

Definition fade (at_ : float) : Transition :=
  {| type_ := "fade"; at_ := at_; dur := FADE_DURATION |}.

(** [beat_map[b["label"]] = b["t"]] for each beat: the last one wins. *)
Definition index_beats (beats : list BeatEvent) : gmap string float :=
  foldl (λ beat_map b, <[b_label b := b_t b]> beat_map) ∅ beats.

Definition intro_card (st : Builder) : Builder :=
  let pos := timeline_pos st in
  {| st_segments := st_segments st ++
       [Card "Token" (Some "a minimal text editor")
             (round3 pos) (round3 (pos + INTRO_DURATION))];
     st_transitions := st_transitions st ++
       [fade (round3 (pos + INTRO_DURATION))];
     timeline_pos := pos + INTRO_DURATION |}.

(** The scene boundaries present in the beats, in the order of
    [SCENE_BEATS]. *)
Definition scene_times_of (beat_map : gmap string float)
    : list (string * float) :=
  foldl (λ scene_times label,
           match beat_map !! label with
           | Some t => scene_times ++ [(label, t)]
           | None => scene_times
           end) [] SCENE_BEATS.

(** [BEAT_LABELS.get(label)] followed by the truth test of [if display_text]:
    a missing label, [None] and the empty string all skip the card. *)
Definition display_text_of (label : string) : option string :=
  match BEAT_LABELS !! label with
  | Some (Some text) => if bool_decide (text = "") then None else Some text
  | _ => None
  end.

Definition interstitial_card (display_text : string) (st : Builder)
    : Builder :=
  let pos := timeline_pos st in
  {| st_segments := st_segments st ++
       [Card display_text None
             (round3 pos) (round3 (pos + INTERSTITIAL_DURATION))];
     st_transitions := st_transitions st ++
       [fade (round3 (pos + INTERSTITIAL_DURATION))];
     timeline_pos := pos + INTERSTITIAL_DURATION |}.

Definition max_clip : float := 5.0.

(** [clip_out] and [clip_duration] once the limit has been applied. *)
Definition clip_extent (start_t end_t raw_duration : float) : float * float :=
  let clip_in := start_t in
  let clip_out := PyFloat.min end_t raw_duration in
  let clip_duration := clip_out - clip_in in
  if gt clip_duration max_clip
  then (clip_in + max_clip, max_clip)
  else (clip_out, clip_duration).

Definition clip_segment (label : string) (start_t end_t raw_duration : float)
    (st : Builder) : Builder :=
  let pos := timeline_pos st in
  let clip_in := start_t in
  let '(clip_out, clip_duration) := clip_extent start_t end_t raw_duration in
  {| st_segments := st_segments st ++
       [Clip label (round3 clip_in) (round3 clip_out)
             (round3 pos) (round3 (pos + clip_duration))
             {| scaleFrom := 1.0; scaleTo := 1.02 |}];
     st_transitions := st_transitions st ++
       [fade (round3 (pos + clip_duration))];
     timeline_pos := pos + clip_duration |}.

(** The body of the scene loop once both table entries have been read. *)
Definition scene (label : string) (start_t end_t raw_duration : float)
    (st : Builder) : Builder :=
  let st :=
    match display_text_of label with
    | Some display_text => interstitial_card display_text st
    | None => st
    end in
  clip_segment label start_t end_t raw_duration st.

(** One iteration; [None] stands for the IndexError of a subscript out of
    range. *)
Definition scene_at (scene_times : list (string * float))
    (raw_duration : float) (st : Builder) (i : nat) : option Builder :=
  '(label, start_t) ← scene_times !! i;
  '(_, end_t) ← scene_times !! S i;
  Some (scene label start_t end_t raw_duration st).

(** [range(n)]; empty when [n] is not positive. *)
Definition range (n : Z) : list nat := seq 0 (Z.to_nat n).

Definition scene_loop (scene_times : list (string * float))
    (raw_duration : float) (st : Builder) : option Builder :=
  foldl (λ acc i, st ← acc; scene_at scene_times raw_duration st i)
        (Some st) (range (Z.of_nat (length scene_times) - 1)).

Definition outro_card (st : Builder) : Builder :=
  let pos := timeline_pos st in
  {| st_segments := st_segments st ++
       [Card "token-editor.com" (Some "")
             (round3 pos) (round3 (pos + OUTRO_DURATION))];
     st_transitions := st_transitions st;
     timeline_pos := pos + OUTRO_DURATION |}.

Definition build_edl (beats : list BeatEvent) (raw_duration : float)
    : option EDL :=
  let beat_map := index_beats beats in
  let st := {| st_segments := []; st_transitions := []; timeline_pos := 0.0 |} in
  let st := intro_card st in
  let scene_times := scene_times_of beat_map in
  st ← scene_loop scene_times raw_duration st;
  let st := outro_card st in
  let total_duration := round3 (timeline_pos st) in
  Some {| fps := FPS;
          size := SIZE;
          durationSec := total_duration;
          inputs := {| video := "recordings/raw.mp4" |};
          segments := st_segments st;
          transitions := st_transitions st |}.

(** ** Reading the result *)

(** What the loop does, as a recursion on the boundary list: one scene for
    each boundary that has a successor. *)
Fixpoint scenes (scene_times : list (string * float)) (raw_duration : float)
    (st : Builder) : Builder :=
  match scene_times with
  | (label, start_t) :: rest =>
      match rest with
      | (_, end_t) :: _ =>
          scenes rest raw_duration (scene label start_t end_t raw_duration st)
      | [] => st
      end
  | [] => st
  end.

Definition is_clip (s : Segment) : bool :=
  match s with
  | Clip _ _ _ _ _ _ => true
  | Card _ _ _ _ => false
  end.

(** The clip segments, in timeline order. *)
Definition clips (segs : list Segment) : list Segment :=
  List.filter is_clip segs.

Definition clip_label (s : Segment) : option string :=
  match s with
  | Clip label _ _ _ _ _ => Some label
  | Card _ _ _ _ => None
  end.

Definition clip_labels (segs : list Segment) : list string :=
  omap clip_label segs.

(** The labels of [SCENE_BEATS] that occur in the beats. *)
Definition used_boundaries (beats : list BeatEvent) : list string :=
  filter (λ label, label ∈ b_label <$> beats) SCENE_BEATS.

(** Consecutive pairs of a list. *)
Definition pairs {A} (l : list A) : list (A * A) := zip l (tail l).

(** [chain a segs b]: the segments tile the timeline from [a] to [b], each
    one starting where the one before it ends. *)
Inductive chain : float → list Segment → float → Prop :=
  | chain_nil a : chain a [] a
  | chain_cons s segs b :
      chain (seg_end s) segs b → chain (seg_start s) (s :: segs) b.

(** The cursor invariant: the segments emitted so far tile the timeline from
    0 to the rounded cursor. *)
Definition tiled (st : Builder) : Prop :=
  chain 0 (st_segments st) (round3 (timeline_pos st)).

(** Until the outro is placed, each segment has been followed by its fade. *)
Definition anchored (st : Builder) : Prop :=
  st_transitions st = (λ s, fade (seg_end s)) <$> st_segments st.

(** The clip the builder emits for the boundary pair [(labelA, tA)],
    [(labelB, tB)] when its cursor is at [pos]. *)
Definition placed_clip (raw_duration : float)
    (ab : (string * float) * (string * float)) (pos : float) : Segment :=
  let '((labelA, tA), (_, tB)) := ab in
  Clip labelA (round3 tA) (round3 (clip_extent tA tB raw_duration).1)
       (round3 pos) (round3 (pos + (clip_extent tA tB raw_duration).2))
       {| scaleFrom := 1.0; scaleTo := 1.02 |}.

(** The clip source points taken as the boundary timestamps themselves, with
    no rounding: in is [tA]; out is [min(tB, raw_duration)] unless the
    natural length exceeds the limit, and then [tA + max_clip], the clip
    being placed with a length of exactly [max_clip]. *)
Definition clip_points_unrounded (beats : list BeatEvent)
    (raw_duration : float) : Prop :=
  ∀ i labelA tA labelB tB,
    scene_times_of (index_beats beats) !! i = Some (labelA, tA) →
    scene_times_of (index_beats beats) !! S i = Some (labelB, tB) →
    ∃ edl in_ out start end_ motion,
      build_edl beats raw_duration = Some edl ∧
      clips (segments edl) !! i = Some (Clip labelA in_ out start end_ motion) ∧
      in_ = tA ∧
      (gt (PyFloat.min tB raw_duration - tA) max_clip = false →
         out = PyFloat.min tB raw_duration) ∧
      (gt (PyFloat.min tB raw_duration - tA) max_clip = true →
         out = tA + max_clip ∧
         ∃ pos, start = round3 pos ∧ end_ = round3 (pos + max_clip)).

(** Every timestamp a segment carries. *)
Definition segment_timestamps (s : Segment) : list float :=
  match s with
  | Card _ _ start end_ => [start; end_]
  | Clip _ in_ out start end_ _ => [in_; out; start; end_]
  end.

(** Every timestamp of an EDL: the fields of its segments, the anchors of its
    transitions and its duration. *)
Definition edl_timestamps (edl : EDL) : list float :=
  durationSec edl ::
  (segments edl ≫= segment_timestamps) ++ (at_ <$> transitions edl).

(** The builder before anything has been emitted. *)
Definition start_state : Builder :=
  {| st_segments := []; st_transitions := []; timeline_pos := 0.0 |}.

(** The returned dict, from the final state. *)
Definition edl_of (st : Builder) : EDL :=
  {| fps := FPS;
     size := SIZE;
     durationSec := round3 (timeline_pos st);
     inputs := {| video := "recordings/raw.mp4" |};
     segments := st_segments st;
     transitions := st_transitions st |}.

(** ** Worked timeline *)

Definition zoom : Motion := {| scaleFrom := 1.0; scaleTo := 1.02 |}.

Definition example_beats : list BeatEvent :=
  [ {| b_label := "open"; b_t := 0.0 |};
    {| b_label := "search"; b_t := 6.0 |};
    {| b_label := "end"; b_t := 9.0 |} ].

(** Beats recorded past the 25 seconds that get_video_duration falls back
    to. *)
Definition late_beats : list BeatEvent :=
  [ {| b_label := "open"; b_t := 26.0 |};
    {| b_label := "end"; b_t := 30.0 |} ].

(** Beats with sub-millisecond timestamps. *)
Definition fine_beats : list BeatEvent :=
  [ {| b_label := "open"; b_t := 1.23456 |};
    {| b_label := "end"; b_t := 4.5 |} ].

(** ** Beyond the typed beats *)

(** build_edl from the scene table on: everything after the beats have been
    indexed. *)
Definition build_timeline (beat_map : gmap string float)
    (raw_duration : float) : option EDL :=
  let st := intro_card start_state in
  let scene_times := scene_times_of beat_map in
  st ← scene_loop scene_times raw_duration st;
  let st := outro_card st in
  Some (edl_of st).

(** What a segment shows: the text of a card or the label of a clip. *)
Definition seg_shows (s : Segment) : string + string :=
  match s with
  | Card text _ _ _ => inl text
  | Clip label _ _ _ _ _ => inr label
  end.

(** What the scene opened by a boundary shows: its caption card, when the
    label has a caption, and then its clip. *)
Definition scene_shows (label : string) : list (string + string) :=
  match display_text_of label with
  | Some display_text => [inl display_text]
  | None => []
  end ++ [inr label].

(** The time the segments of one scene take on the timeline: the caption
    card, when there is one, and then the clip. *)
Definition scene_durations (raw_duration : float)
    (ab : (string * float) * (string * float)) : list float :=
  let '((labelA, tA), (_, tB)) := ab in
  match display_text_of labelA with
  | Some _ => [INTERSTITIAL_DURATION]
  | None => []
  end ++ [(clip_extent tA tB raw_duration).2].

(** The time each segment takes, in timeline order. *)
Definition durations (scene_times : list (string * float))
    (raw_duration : float) : list float :=
  INTRO_DURATION ::
  (pairs scene_times ≫= scene_durations raw_duration) ++ [OUTRO_DURATION].

(** Where the cursor stands after a run of segments: their durations added
    to 0.0 one at a time, from the left, in floating point. *)
Definition cursor_after (ds : list float) : float :=
  foldl PrimFloat.add 0.0 ds.

(** [placed ds st]: the builder has emitted one segment per duration of [ds],
    each from the rounded cursor before it to the rounded cursor after it. *)
Definition placed (ds : list float) (st : Builder) : Prop :=
  timeline_pos st = cursor_after ds ∧
  length (st_segments st) = length ds ∧
  ∀ i s, st_segments st !! i = Some s →
    seg_start s = round3 (cursor_after (take i ds)) ∧
    seg_end s = round3 (cursor_after (take (S i) ds)).

(** *** Beats as the dicts json.loads returns *)

(** A beat record before its keys are read: an object in which "label", when
    present, is a string and "t", when present, is a float.  Other keys are
    never read. *)
Record BeatDict := { d_label : option string; d_t : option float }.

(** The exceptions the builder can raise on such records. *)
Inductive PyError :=
  | KeyError (key : string)
  | IndexError.

(** One pass of [beat_map[b["label"]] = b["t"]]: the right-hand side is
    evaluated first, so a record with neither key fails on "t". *)
Definition index_dict (acc : PyError + gmap string float) (b : BeatDict)
    : PyError + gmap string float :=
  match acc with
  | inl e => inl e
  | inr beat_map =>
      match d_t b with
      | None => inl (KeyError "t")
      | Some t =>
          match d_label b with
          | None => inl (KeyError "label")
          | Some label => inr (<[label := t]> beat_map)
          end
      end
  end.

Definition index_beat_dicts (beats : list BeatDict)
    : PyError + gmap string float :=
  foldl index_dict (inr ∅) beats.

(** build_edl on records whose keys may be missing. *)
Definition build_edl_dicts (beats : list BeatDict) (raw_duration : float)
    : PyError + EDL :=
  match index_beat_dicts beats with
  | inl e => inl e
  | inr beat_map =>
      match build_timeline beat_map raw_duration with
      | Some edl => inr edl
      | None => inl IndexError
      end
  end.

Definition complete (b : BeatDict) : Prop :=
  is_Some (d_t b) ∧ is_Some (d_label b).

(** The record of a typed beat. *)
Definition to_dict (b : BeatEvent) : BeatDict :=
  {| d_label := Some (b_label b); d_t := Some (b_t b) |}.

(** ** round(x, 3) on a few values *)

(** The decimal 1.0005 is stored just below the midpoint and 0.0005 just
    above it; a result of zero keeps its sign; 6.2 + 0.7 and 6.9 are the same
    double, while 1.2 - 1.0 is not 0.2 until it is rounded. *)
Example round3_values :
  round3 1.0005 = 1.0 ∧ round3 0.0005 = 0.001 ∧
  round3 2.675 = 2.675 ∧ round3 1.23456 = 1.235 ∧
  round3 (-0.0004) = (-0) ∧ round3 infinity = infinity ∧
  round3 (6.2 + 0.7) = 6.9 ∧
  ((1.2 + -1.0 =? 0.2) = false ∧ round3 (1.2 + -1.0) = 0.2).
Proof. repeat split; reflexivity. Qed.

(** ** The loop never indexes out of range *)

Lemma scene_at_middle pre label start_t label' end_t rest raw_duration st :
  scene_at (pre ++ (label, start_t) :: (label', end_t) :: rest)
           raw_duration st (length pre)
  = Some (scene label start_t end_t raw_duration st).
Proof.
  unfold scene_at.
  rewrite (list_lookup_middle pre _ _ (length pre)) by done. simpl.
  rewrite (cons_middle (label, start_t)), app_assoc.
  rewrite (list_lookup_middle _ _ _ (S (length pre))); [done|].
  rewrite length_app. simpl. lia.
Qed.

Lemma scene_loop_from pre suf raw_duration st :
  foldl (λ acc i, st ← acc; scene_at (pre ++ suf) raw_duration st i)
        (Some st) (seq (length pre) (length suf - 1)%nat)
  = Some (scenes suf raw_duration st).
Proof.
  revert pre st.
  induction suf as [|[label start_t] suf IH]; intros pre st; [done|].
  destruct suf as [|[label' end_t] rest]; [done|].
  replace (length ((label, start_t) :: (label', end_t) :: rest) - 1)%nat
    with (S (length rest)) by (simpl; lia).
  cbn [seq foldl mbind option_bind].
  rewrite scene_at_middle.
  specialize (IH (pre ++ [(label, start_t)])
                 (scene label start_t end_t raw_duration st)).
  rewrite <- app_assoc, length_app in IH. simpl in IH.
  replace (length pre + 1)%nat with (S (length pre)) in IH by lia.
  replace (length rest - 0)%nat with (length rest) in IH by lia.
  exact IH.
Qed.

Lemma scene_loop_scenes scene_times raw_duration st :
  scene_loop scene_times raw_duration st
  = Some (scenes scene_times raw_duration st).
Proof.
  unfold scene_loop, range.
  replace (Z.to_nat (Z.of_nat (length scene_times) - 1))
    with (length scene_times - 1)%nat by lia.
  apply (scene_loop_from [] scene_times).
Qed.

Lemma build_edl_eq beats raw_duration :
  build_edl beats raw_duration
  = Some (edl_of (outro_card
       (scenes (scene_times_of (index_beats beats)) raw_duration
               (intro_card start_state)))).
Proof.
  unfold build_edl. fold start_state.
  rewrite scene_loop_scenes. reflexivity.
Qed.

(** ** Tiling of the timeline *)

Lemma chain_snoc a segs b s :
  chain a segs b → seg_start s = b → chain a (segs ++ [s]) (seg_end s).
Proof.
  induction 1 as [a|s' segs b Hc IH]; intros Hs; simpl.
  - rewrite <- Hs. constructor. constructor.
  - constructor. by apply IH.
Qed.

Lemma chain_head a s segs b : chain a (s :: segs) b → seg_start s = a.
Proof. by inversion 1. Qed.

Lemma chain_last a segs b s : chain a segs b → last segs = Some s → seg_end s = b.
Proof.
  induction 1 as [a|s' segs b Hc IH]; [done|].
  destruct segs as [|s'' segs]; simpl.
  - intros [= ->]. by inversion Hc.
  - exact IH.
Qed.

Lemma chain_lookup a segs b i x y :
  chain a segs b → segs !! i = Some x → segs !! S i = Some y →
  seg_start y = seg_end x.
Proof.
  intros Hc. revert i.
  induction Hc as [a|s segs b Hc IH]; intros i Hx Hy; [done|].
  destruct i as [|i]; simpl in Hx, Hy.
  - injection Hx as ->. destruct segs as [|s' segs]; [done|].
    injection Hy as ->. by apply chain_head in Hc.
  - by apply (IH i).
Qed.

Lemma tiled_start : tiled start_state.
Proof. unfold tiled. simpl. change (round3 0) with 0. constructor. Qed.

Lemma tiled_emit st s trs d :
  tiled st →
  seg_start s = round3 (timeline_pos st) →
  seg_end s = round3 (timeline_pos st + d) →
  tiled {| st_segments := st_segments st ++ [s];
           st_transitions := trs;
           timeline_pos := timeline_pos st + d |}.
Proof.
  intros H Hs He. unfold tiled. simpl. rewrite <- He.
  by apply chain_snoc with (b := round3 (timeline_pos st)).
Qed.

Lemma tiled_intro st : tiled st → tiled (intro_card st).
Proof. intros H. by apply tiled_emit. Qed.

Lemma tiled_interstitial text st : tiled st → tiled (interstitial_card text st).
Proof. intros H. by apply tiled_emit. Qed.

Lemma tiled_clip label start_t end_t raw_duration st :
  tiled st → tiled (clip_segment label start_t end_t raw_duration st).
Proof.
  intros H. unfold clip_segment.
  destruct (clip_extent start_t end_t raw_duration) as [clip_out clip_duration].
  by apply tiled_emit.
Qed.

Lemma tiled_outro st : tiled st → tiled (outro_card st).
Proof. intros H. by apply tiled_emit. Qed.

Lemma tiled_scene label start_t end_t raw_duration st :
  tiled st → tiled (scene label start_t end_t raw_duration st).
Proof.
  intros H. unfold scene. apply tiled_clip.
  destruct (display_text_of label); [by apply tiled_interstitial | done].
Qed.

Lemma tiled_scenes scene_times raw_duration st :
  tiled st → tiled (scenes scene_times raw_duration st).
Proof.
  revert st.
  induction scene_times as [|[label start_t] rest IH]; intros st H; [done|].
  destruct rest as [|[label' end_t] rest]; [done|].
  apply IH. by apply tiled_scene.
Qed.

Lemma tiled_final beats raw_duration :
  tiled (outro_card (scenes (scene_times_of (index_beats beats)) raw_duration
                            (intro_card start_state))).
Proof. apply tiled_outro, tiled_scenes, tiled_intro, tiled_start. Qed.

Lemma outro_last st :
  last (st_segments (outro_card st))
  = Some (Card "token-editor.com" (Some "")
               (round3 (timeline_pos st))
               (round3 (timeline_pos st + OUTRO_DURATION))).
Proof. simpl. apply last_snoc. Qed.

(** Python's [==] agrees with identity of the value for everything but
    NaN. *)
Lemma py_eq_refl (x : float) : PrimFloat.is_nan x = false → (x =? x) = true.
Proof. unfold PrimFloat.is_nan. by destruct (x =? x). Qed.

(** C1: the segments returned by build_edl are contiguous: the first one
    starts at 0 and every later one starts where the one before it ends.
    The two timestamps are the same float; Python's [==] says so as well
    unless that float is NaN. *)
Theorem build_edl_contiguous beats raw_duration :
  ∃ edl, build_edl beats raw_duration = Some edl ∧
    (∃ s, segments edl !! 0%nat = Some s ∧ seg_start s = 0) ∧
    (∀ i a b, segments edl !! i = Some a → segments edl !! S i = Some b →
       seg_start b = seg_end a ∧
       (PrimFloat.is_nan (seg_end a) = false →
        (seg_start b =? seg_end a) = true)).
Proof.
  eexists. split; [apply build_edl_eq|].
  pose proof (tiled_final beats raw_duration) as Ht.
  unfold tiled in Ht. cbn [edl_of segments].
  split.
  - destruct (st_segments _) as [|s segs] eqn:E.
    + pose proof (outro_last (scenes (scene_times_of (index_beats beats))
                    raw_duration (intro_card start_state))) as Hl.
      by rewrite E in Hl.
    + exists s. split; [done|]. by apply chain_head in Ht.
  - intros i a b Ha Hb.
    assert (seg_start b = seg_end a) as -> by by eapply chain_lookup.
    split; [done|]. apply py_eq_refl.
Qed.

(** C2: durationSec of the returned EDL is the end of its last segment. *)
Theorem build_edl_duration_is_last_end beats raw_duration :
  ∃ edl, build_edl beats raw_duration = Some edl ∧
    ∃ s, last (segments edl) = Some s ∧ durationSec edl = seg_end s.
Proof.
  eexists. split; [apply build_edl_eq|].
  eexists. split; [apply outro_last|]. reflexivity.
Qed.

(** ** Transitions follow segments *)

Lemma anchored_emit st s d :
  anchored st →
  anchored {| st_segments := st_segments st ++ [s];
              st_transitions := st_transitions st ++ [fade (seg_end s)];
              timeline_pos := timeline_pos st + d |}.
Proof. unfold anchored. simpl. intros ->. by rewrite fmap_app. Qed.

Lemma anchored_scene label start_t end_t raw_duration st :
  anchored st → anchored (scene label start_t end_t raw_duration st).
Proof.
  intros H. unfold scene, clip_segment.
  destruct (clip_extent start_t end_t raw_duration) as [clip_out clip_duration].
  apply (anchored_emit _ (Clip _ _ _ _ _ _)).
  destruct (display_text_of label); [|done].
  by apply (anchored_emit _ (Card _ _ _ _)).
Qed.

Lemma anchored_scenes scene_times raw_duration st :
  anchored st → anchored (scenes scene_times raw_duration st).
Proof.
  revert st.
  induction scene_times as [|[label start_t] rest IH]; intros st H; [done|].
  destruct rest as [|[label' end_t] rest]; [done|].
  by apply IH, anchored_scene.
Qed.

(** The shape of every result: the segments before the outro each carry
    their fade, and the outro closes the list. *)
Lemma build_edl_shape beats raw_duration :
  ∃ body pos,
    build_edl beats raw_duration
    = Some {| fps := FPS; size := SIZE;
              durationSec := round3 (pos + OUTRO_DURATION);
              inputs := {| video := "recordings/raw.mp4" |};
              segments := body ++
                [Card "token-editor.com" (Some "")
                      (round3 pos) (round3 (pos + OUTRO_DURATION))];
              transitions := (λ s, fade (seg_end s)) <$> body |}.
Proof.
  rewrite build_edl_eq.
  set (st := scenes _ _ _).
  assert (anchored st) as Ha.
  { apply anchored_scenes. by apply (anchored_emit start_state (Card _ _ _ _)). }
  exists (st_segments st), (timeline_pos st).
  unfold edl_of, outro_card. simpl. by rewrite Ha.
Qed.

(** C3: every transition is anchored at the end of the segment emitted just
    before it (the i-th transition at the end of the i-th segment, with
    another segment after it), and the final segment, the outro card, has no
    transition. *)
Theorem build_edl_transitions_anchored beats raw_duration :
  ∃ edl, build_edl beats raw_duration = Some edl ∧
    (∀ i tr, transitions edl !! i = Some tr →
       ∃ s, segments edl !! i = Some s ∧ at_ tr = seg_end s ∧
            is_Some (segments edl !! S i)) ∧
    (∃ start end_,
       last (segments edl) = Some (Card "token-editor.com" (Some "") start end_) ∧
       transitions edl !! (length (segments edl) - 1)%nat = None).
Proof.
  destruct (build_edl_shape beats raw_duration) as (body & pos & ->).
  eexists. split; [done|]. cbn [segments transitions]. split.
  - intros i tr Htr. rewrite list_lookup_fmap in Htr.
    destruct (body !! i) as [s|] eqn:Hs; [|done].
    injection Htr as <-. exists s.
    split; [by apply lookup_app_l_Some|]. split; [done|].
    apply lookup_lt_is_Some. apply lookup_lt_Some in Hs.
    rewrite length_app. simpl. lia.
  - do 2 eexists. split; [apply last_snoc|].
    apply lookup_ge_None. rewrite length_fmap, length_app. simpl. lia.
Qed.

(** C9: there is one transition fewer than there are segments, and each
    segment but the last is followed by one fade, placed at its end. *)
Theorem build_edl_transition_count beats raw_duration :
  ∃ edl, build_edl beats raw_duration = Some edl ∧
    length (transitions edl) = (length (segments edl) - 1)%nat ∧
    (1 ≤ length (segments edl))%nat ∧
    (∀ i s, segments edl !! i = Some s → (S i < length (segments edl))%nat →
       transitions edl !! i
       = Some {| type_ := "fade"; at_ := seg_end s; dur := FADE_DURATION |}).
Proof.
  destruct (build_edl_shape beats raw_duration) as (body & pos & ->).
  eexists. split; [done|]. cbn [segments transitions].
  rewrite length_fmap, length_app. simpl.
  split; [lia|]. split; [lia|].
  intros i s Hs Hi. rewrite list_lookup_fmap.
  rewrite lookup_app_l in Hs by lia. by rewrite Hs.
Qed.

(** ** Rounding *)

Lemma round3_ms_rounded x : ms_rounded (round3 x).
Proof.
  unfold round3. destruct (Prim2SF x) eqn:E; try apply ms_millis;
    apply ms_special; intros s' m' e'; rewrite E; discriminate.
Qed.

Ltac rounded_fields :=
  simpl;
  repeat first
    [ apply round3_ms_rounded
    | apply Forall_nil_2
    | apply Forall_cons_2
    | assumption
    | rewrite bind_app
    | rewrite fmap_app
    | apply Forall_app_2 ].

(** C10: every timestamp of the returned EDL (start, end, in and out of each
    segment, at of each transition, and durationSec) is a value rounded to
    three decimals by the builder. *)
Theorem build_edl_timestamps_rounded beats raw_duration :
  ∃ edl, build_edl beats raw_duration = Some edl ∧
    Forall ms_rounded (edl_timestamps edl).
Proof.
  eexists. split; [apply build_edl_eq|].
  unfold edl_timestamps. cbn [edl_of durationSec segments transitions].
  set (st0 := intro_card start_state).
  assert (Forall ms_rounded (st_segments st0 ≫= segment_timestamps) ∧
          Forall ms_rounded (at_ <$> st_transitions st0)) as H0
    by (split; rounded_fields).
  revert H0. generalize st0. clear st0.
  induction (scene_times_of (index_beats beats)) as [|[label start_t] rest IH];
    intros st [Hs Ht]; [by rounded_fields|].
  destruct rest as [|[label' end_t] rest]; [by rounded_fields|].
  apply IH. unfold scene, clip_segment.
  destruct (clip_extent start_t end_t raw_duration) as [clip_out clip_duration].
  destruct (display_text_of label); split; rounded_fields.
Qed.

(** ** Which boundaries are used *)

Lemma foldl_insert_is_Some (beats : list BeatEvent) (m : gmap string float) label :
  is_Some (foldl (λ beat_map b, <[b_label b := b_t b]> beat_map) m beats !! label)
  ↔ is_Some (m !! label) ∨ label ∈ b_label <$> beats.
Proof.
  revert m. induction beats as [|b beats IH]; intros m; simpl.
  - rewrite elem_of_nil. tauto.
  - rewrite IH, lookup_insert_is_Some', elem_of_cons. intuition congruence.
Qed.

Lemma index_beats_is_Some beats label :
  is_Some (index_beats beats !! label) ↔ label ∈ b_label <$> beats.
Proof.
  unfold index_beats. rewrite foldl_insert_is_Some, lookup_empty.
  split; [intros [[? [=]]|]; done | by right].
Qed.

Lemma foldl_scene_times (beat_map : gmap string float) labels acc :
  foldl (λ scene_times label,
           match beat_map !! label with
           | Some t => scene_times ++ [(label, t)]
           | None => scene_times
           end) acc labels
  = acc ++ omap (λ label, (label,.) <$> beat_map !! label) labels.
Proof.
  revert acc. induction labels as [|label labels IH]; intros acc; simpl.
  - by rewrite app_nil_r.
  - rewrite IH. destruct (beat_map !! label); simpl; [|done].
    by rewrite <- app_assoc.
Qed.

Lemma scene_labels_filter beats labels :
  (omap (λ label, (label,.) <$> index_beats beats !! label) labels).*1
  = filter (λ label, label ∈ b_label <$> beats) labels.
Proof.
  induction labels as [|label labels IH]; [done|]. simpl.
  pose proof (index_beats_is_Some beats label) as Hl.
  destruct (index_beats beats !! label) as [t|] eqn:E; simpl.
  - rewrite filter_cons_True by (apply Hl; eauto). f_equal. exact IH.
  - rewrite filter_cons_False; [exact IH|].
    intros Hin. apply Hl in Hin. by destruct Hin.
Qed.

(** The labels of [scene_times] are the configured boundaries that occur in
    the beats, in the configured order. *)
Lemma scene_times_labels beats :
  (scene_times_of (index_beats beats)).*1 = used_boundaries beats.
Proof.
  unfold scene_times_of. rewrite foldl_scene_times. apply scene_labels_filter.
Qed.

(** ** The clips *)

Lemma clip_labels_scene label start_t end_t raw_duration st :
  clip_labels (st_segments (scene label start_t end_t raw_duration st))
  = clip_labels (st_segments st) ++ [label].
Proof.
  unfold scene, clip_segment, clip_labels.
  destruct (clip_extent start_t end_t raw_duration) as [clip_out clip_duration].
  destruct (display_text_of label); simpl; rewrite !omap_app; simpl;
    by rewrite ?app_nil_r.
Qed.

Lemma scenes_step label start_t label' end_t rest raw_duration st :
  scenes ((label, start_t) :: (label', end_t) :: rest) raw_duration st
  = scenes ((label', end_t) :: rest) raw_duration
           (scene label start_t end_t raw_duration st).
Proof. reflexivity. Qed.

Lemma clip_labels_scenes scene_times raw_duration st :
  clip_labels (st_segments (scenes scene_times raw_duration st))
  = clip_labels (st_segments st) ++ removelast (scene_times.*1).
Proof.
  revert st.
  induction scene_times as [|[label start_t] rest IH]; intros st.
  { by rewrite app_nil_r. }
  destruct rest as [|[label' end_t] rest].
  { by rewrite app_nil_r. }
  rewrite scenes_step, IH, clip_labels_scene, <- app_assoc. done.
Qed.

Lemma sublist_removelast {A} (l : list A) : removelast l `sublist_of` l.
Proof.
  induction l as [|x [|y l] IH]; [done| |].
  - apply sublist_nil_l.
  - by apply sublist_skip.
Qed.

Lemma clip_labels_final beats raw_duration :
  clip_labels (st_segments (outro_card
     (scenes (scene_times_of (index_beats beats)) raw_duration
             (intro_card start_state))))
  = removelast (used_boundaries beats).
Proof.
  cbn [outro_card st_segments]. unfold clip_labels at 1.
  rewrite omap_app. fold (clip_labels (st_segments
    (scenes (scene_times_of (index_beats beats)) raw_duration
            (intro_card start_state)))).
  rewrite clip_labels_scenes, scene_times_labels. simpl.
  by rewrite app_nil_r.
Qed.

(** The used boundaries depend on which labels occur, not on where. *)
Lemma used_boundaries_perm beats beats' :
  beats ≡ₚ beats' → used_boundaries beats = used_boundaries beats'.
Proof.
  intros Hp. apply list_filter_iff. intros label. by rewrite Hp.
Qed.

(** C6: the clips come in the order of the configured scene-boundary list:
    their labels are the configured boundaries that occur among the beat
    labels, in configured order, the last of them (which opens no clip) left
    out.  Only membership of a label in the beats enters, not the position of
    the beat. *)
Theorem build_edl_clip_order beats raw_duration :
  ∃ edl, build_edl beats raw_duration = Some edl ∧
    clip_labels (segments edl)
    = removelast (filter (λ label, label ∈ b_label <$> beats) SCENE_BEATS) ∧
    clip_labels (segments edl) `sublist_of` SCENE_BEATS.
Proof.
  eexists. split; [apply build_edl_eq|].
  cbn [edl_of segments]. rewrite clip_labels_final.
  split; [done|].
  etrans; [apply sublist_removelast|]. apply sublist_filter.
Qed.

(** Reordering the beats leaves the order of the clips alone. *)
Lemma clip_labels_ignore_beat_order beats beats' raw_duration edl edl' :
  beats ≡ₚ beats' →
  build_edl beats raw_duration = Some edl →
  build_edl beats' raw_duration = Some edl' →
  clip_labels (segments edl) = clip_labels (segments edl').
Proof.
  rewrite !build_edl_eq. intros Hp [= <-] [= <-].
  cbn [edl_of segments]. rewrite !clip_labels_final.
  by rewrite (used_boundaries_perm _ _ Hp).
Qed.

Lemma scenes_short scene_times raw_duration st :
  (length scene_times < 2)%nat → scenes scene_times raw_duration st = st.
Proof.
  destruct scene_times as [|[label start_t] [|[label' end_t] rest]];
    simpl; [done|done|lia].
Qed.

(** C7: when fewer than two configured boundaries occur in the beats (none at
    all for an empty list), build_edl returns an EDL, and its segments are
    the intro card followed by the outro card and nothing else. *)
Theorem build_edl_intro_outro_only beats raw_duration :
  (length (filter (λ label, label ∈ b_label <$> beats) SCENE_BEATS) < 2)%nat →
  ∃ edl, build_edl beats raw_duration = Some edl ∧
    segments edl =
      [ Card "Token" (Some "a minimal text editor") 0 1.2;
        Card "token-editor.com" (Some "") 1.2 2.7 ].
Proof.
  intros Hlt. eexists. split; [apply build_edl_eq|].
  rewrite scenes_short; [by vm_compute|].
  by rewrite <- (length_fmap fst), scene_times_labels.
Qed.

Lemma build_edl_intro_outro_only_witness :
  (length (filter (λ label,
             label ∈ b_label <$> [ {| b_label := "open"; b_t := 3.0 |};
                                   {| b_label := "navigate"; b_t := 4.5 |} ])
           SCENE_BEATS) < 2)%nat ∧
  ∃ edl, build_edl [ {| b_label := "open"; b_t := 3.0 |};
                     {| b_label := "navigate"; b_t := 4.5 |} ] 25.0 = Some edl ∧
    segments edl =
      [ Card "Token" (Some "a minimal text editor") 0 1.2;
        Card "token-editor.com" (Some "") 1.2 2.7 ].
Proof.
  split; [vm_compute; lia|].
  apply build_edl_intro_outro_only. vm_compute. lia.
Defined.

Lemma clips_app segs segs' : clips (segs ++ segs') = clips segs ++ clips segs'.
Proof. apply List.filter_app. Qed.

Lemma clips_scene label start_t label' end_t raw_duration st :
  ∃ pos,
    clips (st_segments (scene label start_t end_t raw_duration st))
    = clips (st_segments st) ++
      [placed_clip raw_duration ((label, start_t), (label', end_t)) pos].
Proof.
  unfold scene, clip_segment, placed_clip.
  destruct (clip_extent start_t end_t raw_duration) as [clip_out clip_duration].
  destruct (display_text_of label); eexists; simpl; rewrite !clips_app;
    simpl; by rewrite ?app_nil_r.
Qed.

Lemma clips_scenes scene_times raw_duration st :
  ∃ cursors,
    length cursors = length (pairs scene_times) ∧
    clips (st_segments (scenes scene_times raw_duration st))
    = clips (st_segments st) ++
      zip_with (placed_clip raw_duration) (pairs scene_times) cursors.
Proof.
  revert st.
  induction scene_times as [|[label start_t] rest IH]; intros st.
  { exists []. by rewrite app_nil_r. }
  destruct rest as [|[label' end_t] rest].
  { exists []. by rewrite app_nil_r. }
  rewrite scenes_step.
  destruct (IH (scene label start_t end_t raw_duration st))
    as (cursors & Hlen & ->).
  destruct (clips_scene label start_t label' end_t raw_duration st)
    as (pos & ->).
  exists (pos :: cursors). split; [simpl; by rewrite Hlen|].
  by rewrite <- app_assoc.
Qed.

Lemma pairs_lookup {A} (l : list A) i x y :
  l !! i = Some x → l !! S i = Some y → pairs l !! i = Some (x, y).
Proof.
  intros Hx Hy. unfold pairs.
  rewrite lookup_zip_with, Hx, lookup_tail, Hy. done.
Qed.

Lemma clips_final beats raw_duration i ab :
  pairs (scene_times_of (index_beats beats)) !! i = Some ab →
  ∃ pos,
    clips (st_segments (outro_card
      (scenes (scene_times_of (index_beats beats)) raw_duration
              (intro_card start_state)))) !! i
    = Some (placed_clip raw_duration ab pos).
Proof.
  intros Hab.
  destruct (clips_scenes (scene_times_of (index_beats beats)) raw_duration
              (intro_card start_state)) as (cursors & Hlen & Hclips).
  destruct (lookup_lt_is_Some_2 cursors i) as [pos Hpos].
  { rewrite Hlen. by apply lookup_lt_Some in Hab. }
  exists pos. cbn [outro_card st_segments].
  rewrite clips_app, Hclips. simpl. rewrite app_nil_r.
  by rewrite lookup_zip_with, Hab, Hpos.
Qed.

(** C4: for consecutive used boundaries (labelA at tA, labelB at tB) the clip
    carries, each rounded to three decimals by the builder: in = tA; out =
    min(tB, raw_duration) when that length does not exceed the limit, and
    otherwise out = tA + max_clip, the clip being placed with a length of
    exactly max_clip. *)
Theorem build_edl_clip_points beats raw_duration i labelA tA labelB tB :
  scene_times_of (index_beats beats) !! i = Some (labelA, tA) →
  scene_times_of (index_beats beats) !! S i = Some (labelB, tB) →
  ∃ edl in_ out start end_ motion,
    build_edl beats raw_duration = Some edl ∧
    clips (segments edl) !! i = Some (Clip labelA in_ out start end_ motion) ∧
    in_ = round3 tA ∧
    (gt (PyFloat.min tB raw_duration - tA) max_clip = false →
       out = round3 (PyFloat.min tB raw_duration)) ∧
    (gt (PyFloat.min tB raw_duration - tA) max_clip = true →
       out = round3 (tA + max_clip) ∧
       ∃ pos, start = round3 pos ∧ end_ = round3 (pos + max_clip)).
Proof.
  intros HA HB.
  destruct (clips_final beats raw_duration i _ (pairs_lookup _ _ _ _ HA HB))
    as (pos & Hclip).
  do 6 eexists. split; [apply build_edl_eq|].
  split; [exact Hclip|]. split; [done|].
  unfold clip_extent.
  split; intros ->; simpl; [done|]. split; [done|]. by exists pos.
Qed.

Lemma build_edl_clip_points_witness :
  scene_times_of (index_beats example_beats) !! 0%nat = Some ("open", 0.0) ∧
  scene_times_of (index_beats example_beats) !! 1%nat = Some ("search", 6.0) ∧
  ∃ edl in_ out start end_ motion,
    build_edl example_beats 9.0 = Some edl ∧
    clips (segments edl) !! 0%nat
    = Some (Clip "open" in_ out start end_ motion) ∧
    in_ = round3 0.0 ∧
    (gt (PyFloat.min 6.0 9.0 - 0.0) max_clip = false →
       out = round3 (PyFloat.min 6.0 9.0)) ∧
    (gt (PyFloat.min 6.0 9.0 - 0.0) max_clip = true →
       out = round3 (0.0 + max_clip) ∧
       ∃ pos, start = round3 pos ∧ end_ = round3 (pos + max_clip)).
Proof.
  split; [by vm_compute|]. split; [by vm_compute|].
  apply (build_edl_clip_points example_beats 9.0 0 "open" 0.0 "search" 6.0);
    by vm_compute.
Defined.

(** With a boundary at 1.23456 the clip's in point is 1.235, not the
    boundary timestamp. *)
Lemma clip_points_unrounded_fails : ¬ clip_points_unrounded fine_beats 10.0.
Proof.
  intros H.
  destruct (H 0%nat "open" 1.23456 "end" 4.5)
    as (edl & in_ & out & start & end_ & motion & Hb & Hc & Hin & _);
    [by vm_compute..|].
  vm_compute in Hb. injection Hb as <-.
  vm_compute in Hc. injection Hc as <- _ _ _ _.
  apply (f_equal (λ x, x =? 1.235)) in Hin.
  vm_compute in Hin. discriminate.
Qed.

(** C5: build_edl emits a clip that ends before it starts.  With 25.0 seconds
    of raw footage and the boundaries open at 26.0 and end at 30.0, the clip
    "open" has in 26.0, out 25.0 and is placed from 1.2 back to 0.2. *)
Theorem build_edl_backward_clip :
  ∃ edl, build_edl late_beats 25.0 = Some edl ∧
    segments edl =
      [ Card "Token" (Some "a minimal text editor") 0 1.2;
        Clip "open" 26.0 25.0 1.2 0.2 zoom;
        Card "token-editor.com" (Some "") 0.2 1.7 ] ∧
    (seg_end (Clip "open" 26.0 25.0 1.2 0.2 zoom)
     <? seg_start (Clip "open" 26.0 25.0 1.2 0.2 zoom)) = true.
Proof.
  eexists. split; [vm_compute; reflexivity|]. split; reflexivity.
Qed.

(** With no raw footage at all the clips are empty rather than backward. *)
Lemma build_edl_empty_clip :
  ∃ edl, build_edl [ {| b_label := "open"; b_t := 0.0 |};
                     {| b_label := "end"; b_t := 9.0 |} ] 0.0 = Some edl ∧
    segments edl =
      [ Card "Token" (Some "a minimal text editor") 0 1.2;
        Clip "open" 0.0 0.0 1.2 1.2 zoom;
        Card "token-editor.com" (Some "") 1.2 2.7 ].
Proof. eexists. split; [vm_compute; reflexivity|]. reflexivity. Qed.

(** C8: for the beats open at 0.0, search at 6.0 and end at 9.0 with 9.0
    seconds of raw footage, the builder returns the intro card on [0, 1.2),
    the clip "open" with in 0.0 and out 5.0 placed on [1.2, 6.2), the card
    "search" on [6.2, 6.9), the clip "search" with in 6.0 and out 9.0 placed
    on [6.9, 9.9), the outro card on [9.9, 11.4), and a duration of 11.4. *)
Theorem build_edl_example :
  ∃ edl, build_edl example_beats 9.0 = Some edl ∧
    segments edl =
      [ Card "Token" (Some "a minimal text editor") 0.0 1.2;
        Clip "open" 0.0 5.0 1.2 6.2 zoom;
        Card "search" None 6.2 6.9;
        Clip "search" 6.0 9.0 6.9 9.9 zoom;
        Card "token-editor.com" (Some "") 9.9 11.4 ] ∧
    durationSec edl = 11.4.
Proof.
  eexists. split; [vm_compute; reflexivity|]. split; reflexivity.
Qed.

(** ** The beat index *)

Lemma index_beats_snoc beats b :
  index_beats (beats ++ [b]) = <[b_label b := b_t b]> (index_beats beats).
Proof. unfold index_beats. by rewrite foldl_snoc. Qed.

(** A label maps to the timestamp of the last beat that carries it, and to
    nothing when no beat does. *)
Lemma index_beats_lookup beats label :
  index_beats beats !! label
  = b_t <$> last (filter (λ b, b_label b = label) beats).
Proof.
  induction beats as [|b beats IH] using rev_ind; [done|].
  rewrite index_beats_snoc, filter_app.
  rewrite (filter_singleton _ b []).
  destruct (decide (b_label b = label)) as [<-|Hne].
  - by rewrite lookup_insert_eq, last_snoc.
  - by rewrite lookup_insert_ne, app_nil_r.
Qed.

Lemma build_edl_timeline beats raw_duration :
  build_edl beats raw_duration
  = build_timeline (index_beats beats) raw_duration.
Proof. reflexivity. Qed.

(** X1: the last beat of a label wins.  A beat whose label occurs again
    later in the list has no effect: the EDL is the one built without it. *)
Theorem build_edl_last_beat_wins beats b beats' raw_duration :
  b_label b ∈ b_label <$> beats' →
  build_edl (beats ++ b :: beats') raw_duration
  = build_edl (beats ++ beats') raw_duration.
Proof.
  intros Hin. rewrite !build_edl_timeline. f_equal.
  apply map_eq. intros label. rewrite !index_beats_lookup.
  rewrite !filter_app, filter_cons.
  destruct (decide (b_label b = label)) as [<-|Hne]; [|done].
  apply list_elem_of_fmap in Hin as (b' & Hl & Hb').
  assert (b' ∈ filter (λ b0, b_label b0 = b_label b) beats') as Hf
    by by apply list_elem_of_filter.
  destruct (filter _ beats') as [|x l] using rev_ind;
    [by apply elem_of_nil in Hf|].
  change (b :: l ++ [x]) with ((b :: l) ++ [x]).
  by rewrite !app_assoc, !last_snoc.
Qed.

Lemma build_edl_last_beat_wins_witness :
  "open" ∈ b_label <$> example_beats ∧
  build_edl ([] ++ {| b_label := "open"; b_t := 3.5 |} :: example_beats) 9.0
  = build_edl ([] ++ example_beats) 9.0.
Proof.
  assert ("open" ∈ b_label <$> example_beats) as Hin by (by left).
  split; [exact Hin|].
  exact (build_edl_last_beat_wins [] {| b_label := "open"; b_t := 3.5 |}
           example_beats 9.0 Hin).
Defined.

Lemma index_beats_list_to_map beats :
  index_beats beats
  = list_to_map (reverse ((λ b, (b_label b, b_t b)) <$> beats)).
Proof.
  induction beats as [|b beats IH] using rev_ind; [done|].
  rewrite index_beats_snoc, fmap_app, reverse_app, IH. done.
Qed.

Lemma index_beats_perm beats beats' :
  NoDup (b_label <$> beats) → beats ≡ₚ beats' →
  index_beats beats = index_beats beats'.
Proof.
  intros Hnd Hp. rewrite !index_beats_list_to_map.
  apply list_to_map_proper.
  - rewrite reverse_Permutation, <- list_fmap_compose. exact Hnd.
  - by rewrite !reverse_Permutation, Hp.
Qed.

(** X2: when no two beats share a label, the order of the beats does not
    matter: every reordering gives the same EDL. *)
Theorem build_edl_beat_order beats beats' raw_duration :
  NoDup (b_label <$> beats) → beats ≡ₚ beats' →
  build_edl beats raw_duration = build_edl beats' raw_duration.
Proof.
  intros Hnd Hp.
  by rewrite !build_edl_timeline, (index_beats_perm _ _ Hnd Hp).
Qed.

Lemma build_edl_beat_order_witness :
  NoDup (b_label <$> example_beats) ∧
  example_beats ≡ₚ reverse example_beats ∧
  build_edl example_beats 9.0 = build_edl (reverse example_beats) 9.0.
Proof.
  assert (NoDup (b_label <$> example_beats)) as Hnd
    by (apply (bool_decide_unpack _); by vm_compute).
  assert (example_beats ≡ₚ reverse example_beats) as Hp
    by by rewrite reverse_Permutation.
  split; [done|]. split; [done|].
  exact (build_edl_beat_order example_beats (reverse example_beats) 9.0 Hnd Hp).
Defined.

Lemma scene_table_ext (m1 m2 : gmap string float) (labels : list string) :
  (∀ label, label ∈ labels → m1 !! label = m2 !! label) →
  omap (λ label, (label,.) <$> m1 !! label) labels
  = omap (λ label, (label,.) <$> m2 !! label) labels.
Proof.
  induction labels as [|label labels IH]; intros H; [done|].
  cbn [omap list_omap]. rewrite (H label) by left.
  fold (omap (λ label, (label,.) <$> m1 !! label) labels).
  fold (omap (λ label, (label,.) <$> m2 !! label) labels).
  rewrite IH; [done|]. intros l Hl. apply H. by right.
Qed.

Lemma scene_times_of_ext (m1 m2 : gmap string float) :
  (∀ label, label ∈ SCENE_BEATS → m1 !! label = m2 !! label) →
  scene_times_of m1 = scene_times_of m2.
Proof.
  intros H. unfold scene_times_of. rewrite !foldl_scene_times. f_equal.
  by apply scene_table_ext.
Qed.

(** X3: beats whose label is not a scene boundary never reach the timeline:
    dropping them from the input leaves the EDL unchanged. *)
Theorem build_edl_ignores_other_beats beats raw_duration :
  build_edl (filter (λ b, b_label b ∈ SCENE_BEATS) beats) raw_duration
  = build_edl beats raw_duration.
Proof.
  rewrite !build_edl_timeline. unfold build_timeline.
  rewrite (scene_times_of_ext _ (index_beats beats)); [done|].
  intros label Hl. rewrite !index_beats_lookup, list_filter_filter.
  do 2 f_equal. apply list_filter_iff. intros b. split; [tauto|].
  intros <-. done.
Qed.

(** ** The raw footage duration *)

Lemma clip_extent_raw start_t end_t raw_duration raw_duration' :
  (raw_duration <? end_t) = false → (raw_duration' <? end_t) = false →
  clip_extent start_t end_t raw_duration
  = clip_extent start_t end_t raw_duration'.
Proof. intros H H'. unfold clip_extent, PyFloat.min. by rewrite H, H'. Qed.

Lemma scenes_raw scene_times raw_duration raw_duration' st :
  Forall (λ p, (raw_duration <? p.2) = false ∧
               (raw_duration' <? p.2) = false) scene_times →
  scenes scene_times raw_duration st = scenes scene_times raw_duration' st.
Proof.
  intros H. revert st.
  induction H as [|[label start_t] rest _ Hrest IH]; intros st; [done|].
  destruct rest as [|[label' end_t] rest]; [done|].
  rewrite !scenes_step, IH. f_equal.
  apply Forall_cons_1 in Hrest as [[H1 H2] _]. simpl in H1, H2.
  unfold scene, clip_segment.
  by rewrite (clip_extent_raw _ _ _ _ H1 H2).
Qed.

(** Every entry of the scene table is a beat of the input. *)
Lemma scene_times_from_beats beats label t :
  (label, t) ∈ scene_times_of (index_beats beats) →
  ∃ b, b ∈ beats ∧ b_label b = label ∧ b_t b = t.
Proof.
  unfold scene_times_of. rewrite foldl_scene_times, app_nil_l.
  rewrite list_elem_of_omap. intros (l & _ & Hl).
  destruct (index_beats beats !! l) as [t'|] eqn:E; [|done].
  injection Hl as -> ->.
  rewrite index_beats_lookup in E.
  destruct (last _) as [b|] eqn:Hlast; [|done]. injection E as <-.
  apply last_Some_elem_of, list_elem_of_filter in Hlast as [? ?]. eauto.
Qed.

(** X4: the raw footage duration only matters when some beat lies beyond
    it: two durations that are both not below any beat timestamp give the
    same EDL. *)
Theorem build_edl_raw_beyond beats raw_duration raw_duration' :
  Forall (λ b, (raw_duration <? b_t b) = false ∧
               (raw_duration' <? b_t b) = false) beats →
  build_edl beats raw_duration = build_edl beats raw_duration'.
Proof.
  intros H. rewrite !build_edl_eq. do 3 f_equal.
  apply scenes_raw. apply Forall_forall. intros [label t] Hin.
  apply scene_times_from_beats in Hin as (b & Hb & _ & <-).
  by apply (proj1 (Forall_forall _ _) H).
Qed.

Lemma build_edl_raw_beyond_witness :
  Forall (λ b, (9.0 <? b_t b) = false ∧ (25.0 <? b_t b) = false)
         example_beats ∧
  build_edl example_beats 9.0 = build_edl example_beats 25.0.
Proof.
  assert (Forall (λ b, (9.0 <? b_t b) = false ∧ (25.0 <? b_t b) = false)
                 example_beats) as H by (repeat constructor).
  split; [exact H|].
  exact (build_edl_raw_beyond example_beats 9.0 25.0 H).
Defined.

(** ** What the timeline shows *)

Lemma shows_scene label start_t end_t raw_duration st :
  seg_shows <$> st_segments (scene label start_t end_t raw_duration st)
  = (seg_shows <$> st_segments st) ++ scene_shows label.
Proof.
  unfold scene, clip_segment, scene_shows.
  destruct (clip_extent start_t end_t raw_duration) as [clip_out clip_duration].
  destruct (display_text_of label); simpl; rewrite !fmap_app; simpl;
    by rewrite <- ?app_assoc.
Qed.

Lemma shows_scenes scene_times raw_duration st :
  seg_shows <$> st_segments (scenes scene_times raw_duration st)
  = (seg_shows <$> st_segments st) ++
    (removelast (scene_times.*1) ≫= scene_shows).
Proof.
  revert st.
  induction scene_times as [|[label start_t] rest IH]; intros st.
  { by rewrite app_nil_r. }
  destruct rest as [|[label' end_t] rest].
  { by rewrite app_nil_r. }
  rewrite scenes_step, IH, shows_scene, <- app_assoc. done.
Qed.

Lemma shows_final beats raw_duration :
  seg_shows <$> st_segments (outro_card
     (scenes (scene_times_of (index_beats beats)) raw_duration
             (intro_card start_state)))
  = inl "Token" ::
    (removelast (used_boundaries beats) ≫= scene_shows) ++
    [inl "token-editor.com"].
Proof.
  cbn [outro_card st_segments]. rewrite fmap_app, shows_scenes.
  by rewrite scene_times_labels.
Qed.

(** X5: what the timeline shows depends on the beat labels alone, not on any
    timestamp: the intro card, then for each used boundary but the last its
    caption card (when BEAT_LABELS gives the label a caption) directly
    followed by its clip, then the outro card. *)
Theorem build_edl_layout beats raw_duration :
  ∃ edl, build_edl beats raw_duration = Some edl ∧
    seg_shows <$> segments edl
    = inl "Token" ::
      (removelast (filter (λ label, label ∈ b_label <$> beats) SCENE_BEATS)
         ≫= scene_shows) ++
      [inl "token-editor.com"].
Proof.
  eexists. split; [apply build_edl_eq|]. apply shows_final.
Qed.

Lemma removelast_filter_snoc {A} (P : A → Prop) `{!∀ x, Decision (P x)}
    (l : list A) x y :
  y ∈ removelast (filter P (l ++ [x])) → y ∈ l.
Proof.
  rewrite filter_app, (filter_singleton _ x []).
  destruct (decide (P x)).
  - rewrite removelast_last. intros Hy.
    by apply list_elem_of_filter in Hy as [_ ?].
  - rewrite app_nil_r. intros Hy.
    apply (sublist_subseteq _ _ (sublist_removelast _)) in Hy.
    by apply list_elem_of_filter in Hy as [_ ?].
Qed.

(** X6: the cards and clips that can occur.  A card shows the title, the
    closing address or one of six captions; a clip carries one of the first
    seven scene boundaries.  So no clip is ever labelled "end", and the
    caption "workspace" of BEAT_LABELS is never shown. *)
Theorem build_edl_cards_and_clips beats raw_duration :
  ∃ edl, build_edl beats raw_duration = Some edl ∧
    Forall (λ s,
      match s with
      | Card text _ _ _ =>
          text ∈ [ "Token"; "multi-cursor"; "split view"; "csv editor";
                   "search"; "outline"; "command palette";
                   "token-editor.com" ]
      | Clip label _ _ _ _ _ =>
          label ∈ [ "open"; "multicursor_start"; "split_view"; "csv_view";
                    "search"; "outline"; "command_palette" ]
      end) (segments edl).
Proof.
  eexists. split; [apply build_edl_eq|]. cbn [edl_of segments].
  pose proof (shows_final beats raw_duration) as Hshows.
  apply Forall_forall. intros s Hs.
  apply (list_elem_of_fmap_2 seg_shows) in Hs. rewrite Hshows in Hs.
  apply elem_of_cons in Hs as [Hs|Hs].
  { destruct s; [|done]. injection Hs as ->. set_solver. }
  apply elem_of_app in Hs as [Hs|Hs]; cycle 1.
  { apply list_elem_of_singleton in Hs. destruct s; [|done].
    injection Hs as ->. set_solver. }
  apply list_elem_of_bind in Hs as (label & Hs & Hl).
  apply (removelast_filter_snoc _
           [ "open"; "multicursor_start"; "split_view"; "csv_view";
             "search"; "outline"; "command_palette" ] "end") in Hl.
  repeat (apply elem_of_cons in Hl as [->|Hl]);
    try (by apply elem_of_nil in Hl);
    vm_compute in Hs;
    repeat (apply elem_of_cons in Hs as [Hs|Hs]);
    try (by apply elem_of_nil in Hs);
    destruct s; try discriminate; injection Hs as ->; set_solver.
Qed.

Lemma clips_length_labels segs : length (clips segs) = length (clip_labels segs).
Proof.
  induction segs as [|[] segs IH]; simpl; [done|exact IH|].
  by rewrite <- IH.
Qed.

(** X7: the size of the timeline.  There is one clip for each used boundary
    but the last, and with the eight configured boundaries the EDL never has
    more than 15 segments (never fewer than the two cards). *)
Theorem build_edl_size beats raw_duration :
  ∃ edl, build_edl beats raw_duration = Some edl ∧
    length (clips (segments edl))
    = (length (filter (λ label, label ∈ b_label <$> beats) SCENE_BEATS) - 1)%nat ∧
    (2 ≤ length (segments edl) ≤ 15)%nat.
Proof.
  eexists. split; [apply build_edl_eq|]. cbn [edl_of segments].
  split.
  - rewrite clips_length_labels, clip_labels_final.
    unfold used_boundaries.
    destruct (filter _ SCENE_BEATS) as [|x l] using rev_ind; [done|].
    rewrite removelast_last, length_app. simpl. lia.
  - rewrite <- (length_fmap seg_shows), shows_final.
    unfold used_boundaries, SCENE_BEATS.
    rewrite !filter_cons, filter_nil.
    repeat case_decide; vm_compute; lia.
Qed.

(** ** The clip length limit *)

Lemma clip_extent_limit start_t end_t raw_duration :
  gt (clip_extent start_t end_t raw_duration).2 max_clip = false.
Proof.
  unfold clip_extent.
  destruct (gt (PyFloat.min end_t raw_duration - start_t) max_clip) eqn:E;
    [reflexivity | exact E].
Qed.

(** X8: no clip is placed with more than max_clip seconds: each one runs
    from the rounded cursor to the rounded cursor plus a duration that is not
    greater than 5.0. *)
Theorem build_edl_clip_limit beats raw_duration :
  ∃ edl, build_edl beats raw_duration = Some edl ∧
    ∀ c, c ∈ clips (segments edl) →
      ∃ pos d, seg_start c = round3 pos ∧ seg_end c = round3 (pos + d) ∧
               gt d max_clip = false.
Proof.
  eexists. split; [apply build_edl_eq|]. cbn [edl_of segments].
  intros c Hc.
  destruct (clips_scenes (scene_times_of (index_beats beats)) raw_duration
              (intro_card start_state)) as (cursors & _ & Hclips).
  cbn [outro_card st_segments] in Hc.
  rewrite clips_app, Hclips in Hc. simpl in Hc. rewrite app_nil_r in Hc.
  apply list_elem_of_lookup in Hc as [i Hi].
  apply lookup_zip_with_Some in Hi as ([[labelA tA] [labelB tB]] & pos & -> & _).
  exists pos, (clip_extent tA tB raw_duration).2.
  split; [done|]. split; [done|]. apply clip_extent_limit.
Qed.

(** ** Fades sit on the junctions *)

(** X9: every transition is anchored where the next segment starts: the i-th
    fade is at the start of segment i + 1. *)
Theorem build_edl_fade_at_next_start beats raw_duration :
  ∃ edl, build_edl beats raw_duration = Some edl ∧
    ∀ i tr, transitions edl !! i = Some tr →
      ∃ s, segments edl !! S i = Some s ∧ at_ tr = seg_start s.
Proof.
  eexists. split; [apply build_edl_eq|].
  pose proof (tiled_final beats raw_duration) as Ht. unfold tiled in Ht.
  cbn [edl_of segments transitions]. revert Ht.
  set (st := scenes _ _ _).
  assert (anchored st) as Ha.
  { apply anchored_scenes. by apply (anchored_emit start_state (Card _ _ _ _)). }
  cbn [outro_card st_segments st_transitions]. intros Ht i tr Htr.
  rewrite Ha, list_lookup_fmap in Htr.
  destruct (st_segments st !! i) as [a|] eqn:Hi; [|done]. injection Htr as <-.
  match type of Ht with chain _ ?segs _ =>
    destruct (lookup_lt_is_Some_2 segs (S i)) as [s Hs] end.
  { apply lookup_lt_Some in Hi. rewrite length_app. simpl. lia. }
  exists s. split; [done|]. simpl. symmetry.
  apply (chain_lookup _ _ _ i a s Ht); [by apply lookup_app_l_Some | done].
Qed.

(** ** Placement by running sums *)

Lemma cursor_after_snoc ds d : cursor_after (ds ++ [d]) = cursor_after ds + d.
Proof. unfold cursor_after. by rewrite foldl_snoc. Qed.

Lemma placed_emit ds st s trs d :
  placed ds st →
  seg_start s = round3 (timeline_pos st) →
  seg_end s = round3 (timeline_pos st + d) →
  placed (ds ++ [d]) {| st_segments := st_segments st ++ [s];
                        st_transitions := trs;
                        timeline_pos := timeline_pos st + d |}.
Proof.
  intros (Hpos & Hlen & Hall) Hs He. split; [|split]; simpl.
  - by rewrite cursor_after_snoc, Hpos.
  - rewrite !length_app. simpl. lia.
  - intros i s' Hi.
    destruct (decide (i < length (st_segments st))%nat) as [Hlt|Hge].
    + rewrite lookup_app_l in Hi by done.
      rewrite !take_app_le by lia. by apply Hall.
    + assert (i = length (st_segments st)) as ->.
      { apply lookup_lt_Some in Hi. rewrite length_app in Hi. simpl in Hi. lia. }
      rewrite list_lookup_middle in Hi by done. injection Hi as <-.
      rewrite Hlen, take_app_length.
      rewrite take_ge by (rewrite length_app; simpl; lia).
      by rewrite cursor_after_snoc, Hs, He, Hpos.
Qed.

Lemma placed_clip_segment ds label start_t end_t raw_duration st :
  placed ds st →
  placed (ds ++ [(clip_extent start_t end_t raw_duration).2])
         (clip_segment label start_t end_t raw_duration st).
Proof.
  intros H. unfold clip_segment.
  destruct (clip_extent start_t end_t raw_duration) as [clip_out clip_duration].
  by apply placed_emit.
Qed.

Lemma placed_scene ds label start_t label' end_t raw_duration st :
  placed ds st →
  placed (ds ++ scene_durations raw_duration
                  ((label, start_t), (label', end_t)))
         (scene label start_t end_t raw_duration st).
Proof.
  intros H. unfold scene, scene_durations.
  destruct (display_text_of label) as [display_text|].
  - rewrite (assoc_L (++)). apply placed_clip_segment.
    unfold interstitial_card. by apply placed_emit.
  - by apply placed_clip_segment.
Qed.

Lemma placed_scenes ds scene_times raw_duration st :
  placed ds st →
  placed (ds ++ (pairs scene_times ≫= scene_durations raw_duration))
         (scenes scene_times raw_duration st).
Proof.
  revert ds st.
  induction scene_times as [|[label start_t] rest IH]; intros ds st H.
  { simpl. by rewrite app_nil_r. }
  destruct rest as [|[label' end_t] rest].
  { simpl. by rewrite app_nil_r. }
  rewrite scenes_step.
  change (pairs ((label, start_t) :: (label', end_t) :: rest))
    with (((label, start_t), (label', end_t)) :: pairs ((label', end_t) :: rest)).
  rewrite bind_cons, (assoc_L (++)).
  by apply IH, placed_scene.
Qed.

Lemma placed_start : placed [] start_state.
Proof. split; [done|]. split; [done|]. by intros i s. Qed.

(** X10: each timestamp is the rounding of an unrounded running sum, so
    rounding never accumulates.  With the segment durations listed in
    timeline order (1.2, then per scene 0.7 for a caption card and the clip's
    duration, then 1.5), segment i starts at the rounded float sum of the
    first i durations and ends at the rounded sum of the first i + 1, and
    durationSec is the rounded sum of all of them. *)
Theorem build_edl_placement beats raw_duration :
  ∃ edl, build_edl beats raw_duration = Some edl ∧
    let ds := durations (scene_times_of (index_beats beats)) raw_duration in
    length (segments edl) = length ds ∧
    (∀ i s, segments edl !! i = Some s →
       seg_start s = round3 (cursor_after (take i ds)) ∧
       seg_end s = round3 (cursor_after (take (S i) ds))) ∧
    durationSec edl = round3 (cursor_after ds).
Proof.
  eexists. split; [apply build_edl_eq|]. cbn zeta.
  assert (placed (durations (scene_times_of (index_beats beats)) raw_duration)
            (outro_card (scenes (scene_times_of (index_beats beats))
                                raw_duration (intro_card start_state))))
    as (Hpos & Hlen & Hall).
  { unfold durations.
    change (INTRO_DURATION :: ?l ++ [OUTRO_DURATION])
      with (([] ++ [INTRO_DURATION]) ++ l ++ [OUTRO_DURATION]).
    rewrite (assoc_L (++)).
    unfold outro_card. apply placed_emit; [|done..].
    apply placed_scenes.
    unfold intro_card. apply placed_emit; [|done..].
    apply placed_start. }
  cbn [edl_of segments durationSec]. by rewrite Hpos.
Qed.

(** ** Records with missing keys *)

Lemma foldl_index_dict_error e beats : foldl index_dict (inl e) beats = inl e.
Proof. by induction beats. Qed.

Lemma index_dicts_typed beats :
  index_beat_dicts (to_dict <$> beats) = inr (index_beats beats).
Proof.
  induction beats as [|b beats IH] using rev_ind; [done|].
  unfold index_beat_dicts in *.
  by rewrite fmap_app, foldl_app, IH, index_beats_snoc.
Qed.

Lemma index_dicts_complete beats :
  Forall complete beats → ∃ typed, beats = to_dict <$> typed.
Proof.
  induction 1 as [|[label t] beats [[t' Ht] [label' Hl]] _ [typed ->]].
  - by exists [].
  - simpl in Ht, Hl. subst.
    by exists ({| b_label := label'; b_t := t' |} :: typed).
Qed.

Lemma build_edl_dicts_typed typed raw_duration :
  build_edl_dicts (to_dict <$> typed) raw_duration
  = inr (edl_of (outro_card
       (scenes (scene_times_of (index_beats typed)) raw_duration
               (intro_card start_state)))).
Proof.
  unfold build_edl_dicts. rewrite index_dicts_typed.
  by rewrite <- build_edl_timeline, build_edl_eq.
Qed.

Lemma build_edl_dicts_first_incomplete typed b beats raw_duration :
  ¬ complete b →
  build_edl_dicts ((to_dict <$> typed) ++ b :: beats) raw_duration
  = inl (KeyError match d_t b with Some _ => "label" | None => "t" end).
Proof.
  intros Hb. unfold build_edl_dicts, index_beat_dicts.
  rewrite foldl_app. fold (index_beat_dicts (to_dict <$> typed)).
  rewrite index_dicts_typed. cbn [foldl index_dict].
  destruct b as [[label|] [t|]]; cbn [d_t d_label];
    rewrite ?foldl_index_dict_error; try done.
  destruct Hb. split; by eexists.
Qed.

#[local] Instance complete_dec b : Decision (complete b).
Proof. unfold complete. apply _. Defined.

Lemma first_incomplete beats :
  ¬ Forall complete beats →
  ∃ pre b post, beats = pre ++ b :: post ∧ Forall complete pre ∧ ¬ complete b.
Proof.
  induction beats as [|b beats IH]; intros Hnot.
  { by destruct Hnot. }
  destruct (decide (complete b)) as [Hb|Hb].
  - destruct IH as (pre & b' & post & -> & Hpre & Hb').
    { intros Hall. apply Hnot. by constructor. }
    exists (b :: pre), b', post. split; [done|]. split; [by constructor|done].
  - by exists [], b, beats.
Qed.

(** X11: on records that all have both keys the builder returns an EDL, the
    one of the typed beats. *)
Theorem build_edl_dicts_complete beats raw_duration :
  ∃ edl, build_edl beats raw_duration = Some edl ∧
    build_edl_dicts (to_dict <$> beats) raw_duration = inr edl.
Proof.
  eexists. split; [apply build_edl_eq|]. apply build_edl_dicts_typed.
Qed.

(** X12: a record without "t" or "label" makes the builder raise KeyError,
    wherever it stands in the list and whatever its label is.  The first
    incomplete record decides the key: "t" when "t" is missing, also when
    "label" is missing too, and "label" otherwise. *)
Theorem build_edl_dicts_missing_key complete_beats b beats raw_duration :
  Forall complete complete_beats → ¬ complete b →
  build_edl_dicts (complete_beats ++ b :: beats) raw_duration
  = inl (KeyError match d_t b with Some _ => "label" | None => "t" end).
Proof.
  intros Hpre Hb.
  apply index_dicts_complete in Hpre as [typed ->].
  by apply build_edl_dicts_first_incomplete.
Qed.

Lemma build_edl_dicts_missing_key_witness :
  Forall complete [to_dict {| b_label := "open"; b_t := 0.0 |}] ∧
  ¬ complete {| d_label := None; d_t := None |} ∧
  build_edl_dicts
    ([to_dict {| b_label := "open"; b_t := 0.0 |}] ++
     {| d_label := None; d_t := None |} ::
     [to_dict {| b_label := "end"; b_t := 9.0 |}]) 9.0
  = inl (KeyError "t").
Proof.
  assert (Forall complete [to_dict {| b_label := "open"; b_t := 0.0 |}])
    as Hpre by (repeat constructor; by eexists).
  assert (¬ complete {| d_label := None; d_t := None |}) as Hb
    by (intros [[? [=]] _]).
  split; [exact Hpre|]. split; [exact Hb|].
  exact (build_edl_dicts_missing_key _ _ _ 9.0 Hpre Hb).
Defined.

(** X13: KeyError is the only way the builder fails: it returns an EDL
    exactly when every record has both keys, and it never raises
    IndexError. *)
Theorem build_edl_dicts_succeeds_iff beats raw_duration :
  (Forall complete beats ↔ ∃ edl, build_edl_dicts beats raw_duration = inr edl) ∧
  build_edl_dicts beats raw_duration ≠ inl IndexError.
Proof.
  destruct (decide (Forall complete beats)) as [Hall|Hnot].
  - destruct (index_dicts_complete _ Hall) as [typed ->].
    rewrite build_edl_dicts_typed.
    split; [|done]. split; [by eexists | done].
  - destruct (first_incomplete _ Hnot) as (pre & b & post & -> & Hpre & Hb).
    apply index_dicts_complete in Hpre as [typed ->].
    rewrite build_edl_dicts_first_incomplete by done.
    split; [|done]. split; [done|]. by intros [? ?].
Qed.
